(** * A shallow embedding of the chained bump-pointer arena of [src/src/arena.h]

    The C program keeps a singly linked chain of [Arena] structs; the
    first one (the head) lives in the caller's storage, the others are
    obtained from [COOL_ARENA_FUNC_ALLOC].  We model the chain as the list
    of its structs in chain order, each one carrying its own address
    ([_self]); the [_next] pointer of a struct is therefore the [_self] of
    the following element of the list, or [NULL] for the last one.

    [uintptr_t] is a 64-bit unsigned integer, kept as a [Z] with every
    wrap-around of the C arithmetic written out with [wrap]. *)

From Stdlib Require Import String Ascii.
From Stdlib Require Import ZArith List Lia Bool.
Import ListNotations.
Open Scope Z_scope.

(** ** Machine words *)

Definition UINTPTR_BITS : Z := 64.
Definition UINTPTR_MOD : Z := 2 ^ UINTPTR_BITS.

(** Reduction modulo [2^64]: the result of every [uintptr_t] operation. *)
Definition wrap (x : Z) : Z := x mod UINTPTR_MOD.

(** [sizeof(uintptr_t)], the stride of [uintptr_t *] pointer arithmetic. *)
Definition SIZEOF_UINTPTR : Z := 8.

Definition NULL : Z := 0.

(** ** The [Arena] struct *)

(** One struct of the chain: [_region], [_size] (the used units) and
    [_alloc_size] (the capacity in units) as in the source; [_self] is the
    address of the struct itself, which its predecessor's [_next] holds. *)
Record Arena := mkArena {
  _self : Z;
  _region : Z;
  _size : Z;
  _alloc_size : Z
}.

(** A chain, head first. *)
Definition chain := list Arena.

(** The [_next] field of the [i]-th struct of a chain. *)
Definition _next (c : chain) (i : nat) : Z :=
  match nth_error c (S i) with
  | Some n => _self n
  | None => NULL
  end.

(** ** [Arena_init] *)

Definition Arena_init_node (self : Z) : Arena := mkArena self NULL 0 0.

(** [Arena_init(&arena)] on the caller's struct at address [self]: the
    chain made of that single, blank struct ([_next = NULL]). *)
Definition Arena_init (self : Z) : chain := [Arena_init_node self].

(** ** [Arena_alloc] *)

(** [size = (size >> 2) + 1]. *)
Definition conv_size (size : Z) : Z := wrap (Z.shiftr size 2 + 1).

(** The free-space test [size <= arena->_alloc_size - arena->_size],
    with the unsigned subtraction. *)
Definition fits (s : Z) (n : Arena) : bool :=
  s <=? wrap (_alloc_size n - _size n).

(** The doubling loop
<<
    while (new_capacity < size) {
        if (new_capacity > new_capacity << 1) return NULL;
        new_capacity <<= 1;
    }
>>
    [None] is the [return NULL] of the overflow check.  The loop runs at
    most 64 times for a starting capacity in [1, 2^64), so the fuel
    [grow_fuel] is never the reason for [None] (see
    [grow_loop_complete]). *)
Fixpoint grow_loop (fuel : nat) (new_capacity size : Z) : option Z :=
  match fuel with
  | O => None
  | S f =>
      if new_capacity <? size then
        if wrap (Z.shiftl new_capacity 1) <? new_capacity then None
        else grow_loop f (wrap (Z.shiftl new_capacity 1)) size
      else Some new_capacity
  end.

Definition grow_fuel : nat := 65.

(** [new_capacity = COOL_ARENA_DEF_SIZE] followed by the loop. *)
Definition new_capacity_for (def_size size : Z) : option Z :=
  grow_loop grow_fuel def_size size.

(** The growth path, run on the last struct [n] of the chain, once the
    converted request [s] was found not to fit in it.  [m_region] and
    [m_arena] are the values the memory provider returns to the calls
    [COOL_ARENA_FUNC_ALLOC(new_capacity)] and
    [COOL_ARENA_FUNC_ALLOC(sizeof(Arena))] ([NULL] on failure).  The
    result is the returned pointer and the chain from [n] on. *)
Definition alloc_grow (def_size m_region m_arena s : Z) (n : Arena)
    (rest : chain) : Z * chain :=
  match new_capacity_for def_size s with
  | None => (NULL, n :: rest)
  | Some new_capacity =>
      if m_region =? NULL then (NULL, n :: rest)
      else if negb (_region n =? NULL) then
        (* a fresh struct: [Arena_init], then the update below *)
        if m_arena =? NULL then (NULL, n :: rest)   (* free(new_region) *)
        else
          let na := Arena_init_node m_arena in
          (m_region,
           [n; mkArena (_self na) m_region (wrap (_size na + s)) new_capacity])
      else
        (m_region,
         [mkArena (_self n) m_region (wrap (_size n + s)) new_capacity])
  end.

(** The fast path on struct [n]: [mem = arena->_region + arena->_size;
    arena->_size += size]. *)
Definition alloc_fast (s : Z) (n : Arena) : Z * Arena :=
  (wrap (_region n + SIZEOF_UINTPTR * _size n),
   mkArena (_self n) (_region n) (wrap (_size n + s)) (_alloc_size n)).

(** The walk along the chain ([for (;;)]: stop at the tail or at the first
    struct with enough free space), followed by the fast or the growth
    path on the struct it stopped at. *)
Fixpoint alloc_walk (def_size m_region m_arena s : Z) (c : chain)
    : Z * chain :=
  match c with
  | [] => (NULL, [])
  | n :: rest =>
      if (match rest with [] => true | _ => false end) || fits s n then
        if fits s n then
          let '(mem, n') := alloc_fast s n in (mem, n' :: rest)
        else alloc_grow def_size m_region m_arena s n rest
      else
        let '(mem, rest') := alloc_walk def_size m_region m_arena s rest in
        (mem, n :: rest')
  end.

(** [Arena_alloc(arena, size)] with [COOL_ARENA_DEF_SIZE = def_size]. *)
Definition Arena_alloc (def_size m_region m_arena : Z) (c : chain)
    (size : Z) : Z * chain :=
  if size =? 0 then (NULL, c)
  else alloc_walk def_size m_region m_arena (conv_size size) c.

(** ** [Arena_reset] *)

Definition Arena_reset (c : chain) : chain :=
  map (fun n => mkArena (_self n) (_region n) 0 (_alloc_size n)) c.

(** ** [Arena_free] *)

(** The loop of [Arena_free]: every struct it visits, after
    [arena->_region = NULL] and [prev->_next = NULL].  The structs are
    returned in visiting order; each of them now has [_next = NULL]. *)
Definition Arena_free_visited (c : chain) : list Arena :=
  map (fun n => mkArena (_self n) NULL (_size n) (_alloc_size n)) c.

(** The chain reachable from the head after [Arena_free]: the head alone,
    since its [_next] was cleared. *)
Definition Arena_free (c : chain) : chain :=
  firstn 1 (Arena_free_visited c).

(** ** Reachable arenas *)

(** The chains obtained from [Arena_init] by any sequence of operations,
    with any answers of the memory provider and any request size. *)
Inductive reachable (def_size : Z) : chain -> Prop :=
| reach_init self : reachable def_size (Arena_init self)
| reach_alloc c m_region m_arena size :
    reachable def_size c -> 0 <= size < UINTPTR_MOD ->
    reachable def_size (snd (Arena_alloc def_size m_region m_arena c size))
| reach_reset c : reachable def_size c -> reachable def_size (Arena_reset c)
| reach_free c : reachable def_size c -> reachable def_size (Arena_free c).

Example ex_scenario_a :
  let c0 := Arena_init 1000 in
  let '(p0, c1) := Arena_alloc 16 5000 0 c0 14 in
  let '(p1, c2) := Arena_alloc 16 6000 7000 c1 128 in
  (p0, p1, c2) =
  (5000, 6000, [mkArena 1000 5000 4 16; mkArena 7000 6000 33 64]).
Proof. reflexivity. Qed.

(** The chains reached from [Arena_init(&arena)] on the caller's struct at
    address [self], by any sequence of operations. *)
Inductive reachable_from (def_size self : Z) : chain -> Prop :=
| rf_init : reachable_from def_size self (Arena_init self)
| rf_alloc c m_region m_arena size :
    reachable_from def_size self c -> 0 <= size < UINTPTR_MOD ->
    reachable_from def_size self
      (snd (Arena_alloc def_size m_region m_arena c size))
| rf_reset c :
    reachable_from def_size self c ->
    reachable_from def_size self (Arena_reset c)
| rf_free c :
    reachable_from def_size self c ->
    reachable_from def_size self (Arena_free c).

(** Total number of units in use over a chain. *)
Definition total_used (c : chain) : Z :=
  fold_right (fun n acc => _size n + acc) 0 c.

(** [n'] is struct [n] after an operation that kept it in place: same
    address, and same buffer and capacity if it had a buffer. *)
Definition keeps_struct (n n' : Arena) : Prop :=
  _self n' = _self n /\
  (_region n <> NULL -> _region n' = _region n /\ _alloc_size n' = _alloc_size n).

(** ** [Arena_dump] *)

(** Program memory as [Arena_dump] reads it: the [uintptr_t] word stored
    at each byte address. *)
Definition memory := Z -> Z.

Definition newline : string := String (ascii_of_nat 10) EmptyString.

Definition digit_char (d : Z) : ascii :=
  ascii_of_nat (Z.to_nat (if d <? 10 then 48 + d else 87 + d)).

(** The digits of [v] in base [b], most significant first, in front of
    [acc]; [fuel] bounds the number of digits. *)
Fixpoint digits (fuel : nat) (b v : Z) (acc : string) : string :=
  match fuel with
  | O => acc
  | S f =>
      let acc' := String (digit_char (v mod b)) acc in
      if v <? b then acc' else digits f b (v / b) acc'
  end.

(** [printf("%lu", v)] for a [uintptr_t] [v]: at most 20 decimal digits. *)
Definition fmt_lu (v : Z) : string := digits 20 10 v EmptyString.

(** [printf("%#lx", v)]: the [#] flag puts [0x] before non-zero values
    only, so zero prints as [0]. *)
Definition fmt_alt_lx (v : Z) : string :=
  if v =? 0 then "0"%string
  else ("0x" ++ digits 16 16 v EmptyString)%string.

(** The loop [for (uintptr_t i = ...; i < arena->_alloc_size; i++)] of
    [Arena_dump], from index [i] with [count] iterations left: each word
    [_region[i]] is printed with [%#lx], followed by a newline after every
    twentieth word and by a space otherwise. *)
Fixpoint dump_words (mem : memory) (region i : Z) (count : nat) : string :=
  match count with
  | O => EmptyString
  | S k =>
      (fmt_alt_lx (wrap (mem (wrap (region + SIZEOF_UINTPTR * i)))) ++
       (if (wrap (i + 1) mod 20 =? 0)%Z then newline else " ") ++
       dump_words mem region (i + 1) k)%string
  end.

(** [Arena_dump(arena)]: the text written to [stdout] for struct [n] whose
    [_next] field holds [next]; [fmt_ptr] is the implementation-defined
    text of [%p]. *)
Definition Arena_dump (fmt_ptr : Z -> string) (mem : memory) (n : Arena)
    (next : Z) : string :=
  ("_region:     " ++ fmt_ptr (_region n) ++ newline ++
   "_size:       " ++ fmt_lu (_size n) ++ newline ++
   "_alloc_size: " ++ fmt_lu (_alloc_size n) ++ newline ++
   "_next:       " ++ fmt_ptr next ++ newline ++
   "== region contents ==" ++ newline ++
   (if negb (_region n =? NULL)%Z
    then dump_words mem (_region n) 0 (Z.to_nat (_alloc_size n))
    else "Region is blank" ++ newline) ++
   newline)%string.

(** ** Concrete arenas and memories *)

(** The chain after a first 4-byte request on a fresh arena. *)
Definition one_region : chain := [mkArena 1000 5000 2 16].

(** A chain whose head is full and whose second struct has room. *)
Definition two_regions : chain :=
  [mkArena 1000 5000 16 16; mkArena 7000 6000 2 16].

(** A memory that differs from the identity memory below address 5000 and
    past [5000 + 8 * 16], but agrees with it on the 16 words printed for
    a buffer at 5000 of capacity 16. *)
Definition mem_outside (x : Z) : Z :=
  if x <? 5000 then 7 else if 5000 + 8 * 16 <=? x then 9 else x.

(** ** Lemmas on the model *)

(** The head left by [Arena_free]: the buffer is cleared, while [_size]
    and [_alloc_size] keep their values. *)
Lemma Arena_free_cons (n : Arena) (rest : chain) :
  Arena_free (n :: rest) = [mkArena (_self n) NULL (_size n) (_alloc_size n)].
Proof. reflexivity. Qed.

Lemma Arena_free_visited_region (c : chain) :
  Forall (fun n => _region n = NULL) (Arena_free_visited c).
Proof.
  induction c as [|n c IH]; simpl; constructor; auto.
Qed.

(** Well-formed structs: [_size <= _alloc_size] within [uintptr_t], and a
    struct without a buffer has no capacity. *)
Definition wf_arena (n : Arena) : Prop :=
  0 <= _size n /\ _size n <= _alloc_size n < UINTPTR_MOD /\
  (_region n = NULL -> _alloc_size n = 0).

Lemma wrap_small (x : Z) : 0 <= x < UINTPTR_MOD -> wrap x = x.
Proof. intros H. unfold wrap. apply Z.mod_small. exact H. Qed.

Lemma UINTPTR_MOD_eq : UINTPTR_MOD = 18446744073709551616.
Proof. reflexivity. Qed.

(** On a well-formed struct the unsigned subtraction does not wrap. *)
Lemma fits_wf (s : Z) (n : Arena) :
  0 <= _size n /\ _size n <= _alloc_size n < UINTPTR_MOD ->
  fits s n = (s <=? _alloc_size n - _size n).
Proof.
  intros H. unfold fits. rewrite wrap_small by lia. reflexivity.
Qed.

Lemma conv_size_range (size : Z) :
  0 <= size < UINTPTR_MOD -> 1 <= conv_size size <= 2 ^ 62.
Proof.
  intros H. unfold conv_size.
  rewrite Z.shiftr_div_pow2 by lia.
  rewrite UINTPTR_MOD_eq in H.
  assert (0 <= size / 2 ^ 2 < 2 ^ 62).
  { split; [apply Z.div_pos; lia|].
    apply Z.div_lt_upper_bound; [lia|]. simpl. lia. }
  rewrite wrap_small; rewrite ?UINTPTR_MOD_eq; lia.
Qed.

Lemma alloc_walk_cons (def_size m_region m_arena s : Z) (n : Arena)
    (rest : chain) :
  alloc_walk def_size m_region m_arena s (n :: rest) =
  if (match rest with [] => true | _ => false end) || fits s n then
    if fits s n then
      let '(mem, n') := alloc_fast s n in (mem, n' :: rest)
    else alloc_grow def_size m_region m_arena s n rest
  else
    let '(mem, rest') := alloc_walk def_size m_region m_arena s rest in
    (mem, n :: rest').
Proof. reflexivity. Qed.

(** The walk stops at the first struct with enough free space. *)
Lemma alloc_walk_fast (def_size m_region m_arena s : Z)
    (pre : chain) (n : Arena) (post : chain) :
  Forall (fun m => fits s m = false) pre -> fits s n = true ->
  alloc_walk def_size m_region m_arena s (pre ++ n :: post) =
  (fst (alloc_fast s n), pre ++ snd (alloc_fast s n) :: post).
Proof.
  intros Hpre Hn. induction Hpre as [|m pre Hm Hpre IH].
  - simpl. rewrite Hn, orb_true_r. reflexivity.
  - simpl app. rewrite alloc_walk_cons, Hm, orb_false_r.
    replace (match pre ++ n :: post with [] => true | _ => false end)
      with false by (destruct pre; reflexivity).
    rewrite IH. reflexivity.
Qed.

(** When no struct has enough free space, the walk reaches the tail and
    takes the growth path there. *)
Lemma alloc_walk_grow (def_size m_region m_arena s : Z)
    (pre : chain) (n : Arena) :
  Forall (fun m => fits s m = false) (pre ++ [n]) ->
  alloc_walk def_size m_region m_arena s (pre ++ [n]) =
  (fst (alloc_grow def_size m_region m_arena s n []),
   pre ++ snd (alloc_grow def_size m_region m_arena s n [])).
Proof.
  induction pre as [|m pre IH]; intros H.
  - inversion H as [|x l Hn]; subst. simpl. rewrite Hn. simpl.
    destruct (alloc_grow _ _ _ _ _ _); reflexivity.
  - inversion H as [|x l Hm Hrest]; subst. simpl app.
    rewrite alloc_walk_cons, Hm, orb_false_r.
    replace (match pre ++ [n] with [] => true | _ => false end)
      with false by (destruct pre; reflexivity).
    rewrite IH by exact Hrest. reflexivity.
Qed.

(** ** The doubling loop *)

Lemma double_wrap (x : Z) :
  0 <= x < UINTPTR_MOD ->
  (wrap (Z.shiftl x 1) <? x) = false -> 2 * x < UINTPTR_MOD /\
  wrap (Z.shiftl x 1) = 2 * x.
Proof.
  intros Hx Hc. apply Z.ltb_ge in Hc.
  rewrite Z.shiftl_mul_pow2 in * by lia.
  change (2 ^ 1) with 2 in *.
  assert (2 * x < UINTPTR_MOD).
  { destruct (Z.lt_ge_cases (2 * x) UINTPTR_MOD) as [|Hge]; [assumption|].
    unfold wrap in Hc.
    rewrite (Z.mod_eq (x * 2)) in Hc by lia.
    assert ((x * 2) / UINTPTR_MOD = 1).
    { symmetry. apply Z.div_unique with (r := x * 2 - UINTPTR_MOD); lia. }
    lia. }
  split; [assumption|]. rewrite wrap_small; lia.
Qed.

Lemma double_overflow (x : Z) :
  0 < x < UINTPTR_MOD -> UINTPTR_MOD <= 2 * x ->
  (wrap (Z.shiftl x 1) <? x) = true.
Proof.
  intros Hx Hge. apply Z.ltb_lt.
  rewrite Z.shiftl_mul_pow2 by lia. change (2 ^ 1) with 2.
  unfold wrap.
  rewrite (Z.mod_eq (x * 2)) by lia.
  assert ((x * 2) / UINTPTR_MOD = 1).
  { symmetry. apply Z.div_unique with (r := x * 2 - UINTPTR_MOD); lia. }
  lia.
Qed.

(** A capacity returned by the loop is [x * 2^k] for the least [k] with
    [size <= x * 2^k], and stays within [uintptr_t]. *)
Lemma grow_loop_sound (fuel : nat) (x size nc : Z) :
  0 < x < UINTPTR_MOD -> grow_loop fuel x size = Some nc ->
  exists k, 0 <= k /\ nc = x * 2 ^ k /\ size <= nc /\ nc < UINTPTR_MOD /\
    (forall j, 0 <= j < k -> x * 2 ^ j < size).
Proof.
  revert x. induction fuel as [|f IH]; intros x Hx H; cbn [grow_loop] in H.
  - discriminate.
  - destruct (x <? size) eqn:Hlt.
    + destruct (wrap (Z.shiftl x 1) <? x) eqn:Hc; [discriminate|].
      destruct (double_wrap x ltac:(lia) Hc) as [H2 Hw].
      rewrite Hw in H.
      destruct (IH (2 * x) ltac:(lia) H) as (k & Hk & Hnc & Hs & Hm & Hmin).
      apply Z.ltb_lt in Hlt.
      exists (k + 1). split; [lia|]. split.
      { rewrite Hnc, Z.pow_add_r by lia. ring. }
      split; [assumption|]. split; [assumption|].
      intros j Hj. destruct (Z.eq_dec j 0) as [->|Hj0].
      * rewrite Z.mul_1_r. assumption.
      * replace j with ((j - 1) + 1) by lia.
        rewrite Z.pow_add_r by lia.
        specialize (Hmin (j - 1) ltac:(lia)). lia.
    + injection H as <-. apply Z.ltb_ge in Hlt.
      exists 0. repeat split; lia.
Qed.

Lemma grow_loop_least (fuel : nat) (x size nc : Z) :
  0 < x < UINTPTR_MOD -> grow_loop fuel x size = Some nc ->
  exists k, 0 <= k /\ nc = x * 2 ^ k /\ size <= nc /\
    (forall j, 0 <= j -> size <= x * 2 ^ j -> nc <= x * 2 ^ j).
Proof.
  intros Hx H.
  destruct (grow_loop_sound fuel x size nc Hx H)
    as (k & Hk & Hnc & Hs & _ & Hmin).
  exists k. repeat split; try assumption.
  intros j Hj Hsj. destruct (Z.lt_ge_cases j k) as [Hjk|Hjk].
  - specialize (Hmin j ltac:(lia)). lia.
  - rewrite Hnc. apply Z.mul_le_mono_nonneg_l; [lia|].
    apply Z.pow_le_mono_r; lia.
Qed.

(** When every [x * 2^k] at least [size] leaves [uintptr_t], the overflow
    check fires. *)
Lemma grow_loop_overflow (fuel : nat) (x size : Z) :
  0 < x < UINTPTR_MOD ->
  (forall k, 0 <= k -> size <= x * 2 ^ k -> UINTPTR_MOD <= x * 2 ^ k) ->
  grow_loop fuel x size = None.
Proof.
  revert x. induction fuel as [|f IH]; intros x Hx H; cbn [grow_loop]; [reflexivity|].
  destruct (x <? size) eqn:Hlt.
  - destruct (wrap (Z.shiftl x 1) <? x) eqn:Hc; [reflexivity|].
    destruct (double_wrap x ltac:(lia) Hc) as [H2 Hw]. rewrite Hw.
    apply IH; [lia|]. intros k Hk Hs.
    assert (E : x * 2 ^ (k + 1) = 2 * x * 2 ^ k)
      by (rewrite Z.pow_add_r, Z.pow_1_r by lia; ring).
    specialize (H (k + 1) ltac:(lia)). rewrite E in H. exact (H Hs).
  - apply Z.ltb_ge in Hlt. specialize (H 0 ltac:(lia)).
    rewrite Z.mul_1_r in H. lia.
Qed.

(** The fuel suffices: when some [x * 2^k] at least [size] fits in
    [uintptr_t] and [k] is below the fuel, the loop returns a capacity. *)
Lemma grow_loop_complete (fuel : nat) (x size : Z) (k : nat) :
  (k < fuel)%nat -> 0 < x -> size <= x * 2 ^ Z.of_nat k < UINTPTR_MOD ->
  exists nc, grow_loop fuel x size = Some nc.
Proof.
  revert x k. induction fuel as [|f IH]; intros x k Hk Hx Hs; [lia|]. cbn [grow_loop].
  destruct (x <? size) eqn:Hlt; [|eexists; reflexivity].
  apply Z.ltb_lt in Hlt.
  destruct k as [|k]; [simpl in Hs; lia|].
  rewrite Nat2Z.inj_succ, Z.pow_succ_r in Hs by lia.
  assert (1 <= 2 ^ Z.of_nat k)
    by (pose proof (Z.pow_pos_nonneg 2 (Z.of_nat k) ltac:(lia) ltac:(lia)); lia).
  assert (Hno : (wrap (Z.shiftl x 1) <? x) = false).
  { apply Z.ltb_ge. rewrite Z.shiftl_mul_pow2 by lia.
    change (2 ^ 1) with 2. rewrite wrap_small by nia. lia. }
  rewrite Hno. destruct (double_wrap x ltac:(nia) Hno) as [_ Hw]. rewrite Hw.
  apply (IH _ k); [lia|lia|]. nia.
Qed.

Lemma new_capacity_for_complete (def_size size k : Z) :
  0 < def_size -> 0 <= k -> size <= def_size * 2 ^ k < UINTPTR_MOD ->
  exists nc, new_capacity_for def_size size = Some nc.
Proof.
  intros Hd Hk Hs. apply (grow_loop_complete _ _ _ (Z.to_nat k)); [|lia|].
  - assert (k < 64).
    { destruct (Z.lt_ge_cases k 64) as [|Hge]; [assumption|].
      assert (2 ^ 64 <= 2 ^ k) by (apply Z.pow_le_mono_r; lia).
      rewrite UINTPTR_MOD_eq in Hs. nia. }
    unfold grow_fuel. lia.
  - rewrite Z2Nat.id by lia. exact Hs.
Qed.

(** For a real request the doubling loop never overflows: the converted
    size is at most [2^62]. *)
Lemma new_capacity_for_conv_size (def_size size : Z) :
  0 < def_size < UINTPTR_MOD -> 0 <= size < UINTPTR_MOD ->
  exists nc, new_capacity_for def_size (conv_size size) = Some nc.
Proof.
  intros Hd Hs. pose proof (conv_size_range size Hs) as Hc.
  destruct (Z.le_gt_cases (conv_size size) def_size) as [Hle|Hgt].
  - apply (new_capacity_for_complete _ _ 0); [lia|lia|]. rewrite Z.mul_1_r. lia.
  - (* the least k with conv_size size <= def_size * 2^k *)
    destruct (Z.log2_spec (conv_size size / def_size) ltac:(
      apply Z.div_str_pos; lia)) as [_ Hup].
    set (k := Z.log2 (conv_size size / def_size) + 1).
    assert (Hk : 1 <= k) by (pose proof (Z.log2_nonneg (conv_size size / def_size)); lia).
    apply (new_capacity_for_complete _ _ k); [lia|lia|].
    assert (Hsk : conv_size size / def_size < 2 ^ k) by (unfold k; lia).
    assert (Hlt : conv_size size < def_size * 2 ^ k).
    { pose proof (Z.mul_div_le (conv_size size) def_size ltac:(lia)).
      pose proof (Z.mod_pos_bound (conv_size size) def_size ltac:(lia)).
      pose proof (Z.div_mod (conv_size size) def_size ltac:(lia)).
      nia. }
    split; [lia|].
    assert (Hdk : def_size * 2 ^ (k - 1) <= conv_size size).
    { assert (2 ^ (k - 1) <= conv_size size / def_size).
      { unfold k. replace (Z.log2 (conv_size size / def_size) + 1 - 1)
          with (Z.log2 (conv_size size / def_size)) by ring.
        apply Z.log2_spec. apply Z.div_str_pos. lia. }
      apply Z.le_trans with (def_size * (conv_size size / def_size)).
      - apply Z.mul_le_mono_nonneg_l; lia.
      - apply Z.mul_div_le. lia. }
    assert (E : def_size * 2 ^ k = 2 * (def_size * 2 ^ (k - 1))).
    { replace k with ((k - 1) + 1) at 1 by ring.
      rewrite Z.pow_add_r, Z.pow_1_r by lia. ring. }
    rewrite UINTPTR_MOD_eq. rewrite E. lia.
Qed.

(** Either no struct has enough free space, or there is a first one. *)
Lemma first_fit_split (s : Z) (c : chain) :
  Forall (fun m => fits s m = false) c \/
  exists pre n post, c = pre ++ n :: post /\
    Forall (fun m => fits s m = false) pre /\ fits s n = true.
Proof.
  induction c as [|m c IH]; [left; constructor|].
  destruct (fits s m) eqn:Hm.
  - right. exists [], m, c. auto.
  - destruct IH as [IH|(pre & n & post & -> & Hpre & Hn)].
    + left. constructor; assumption.
    + right. exists (m :: pre), n, post. split; [reflexivity|].
      split; [constructor|]; assumption.
Qed.

Lemma Forall_no_fit_wf (s : Z) (l : chain) :
  Forall wf_arena l ->
  Forall (fun m => fits s m = false) l <->
  Forall (fun m => _alloc_size m - _size m < s) l.
Proof.
  intros Hwf. rewrite !Forall_forall in *. split; intros H m Hm;
    specialize (H m Hm); destruct (Hwf m Hm) as [Hr [Hr2 _]]; cbv beta in *;
    rewrite (fits_wf s m (conj Hr Hr2)) in *.
  - apply Z.leb_gt in H. lia.
  - apply Z.leb_gt. lia.
Qed.

(** ** Well-formedness of arenas that were never freed *)

Inductive reachable_nofree (def_size : Z) : chain -> Prop :=
| rnf_init self : reachable_nofree def_size (Arena_init self)
| rnf_alloc c m_region m_arena size :
    reachable_nofree def_size c -> 0 <= size < UINTPTR_MOD ->
    reachable_nofree def_size
      (snd (Arena_alloc def_size m_region m_arena c size))
| rnf_reset c :
    reachable_nofree def_size c -> reachable_nofree def_size (Arena_reset c).

Lemma Arena_alloc_wf (def_size m_region m_arena : Z) (c : chain) (size : Z) :
  0 < def_size < UINTPTR_MOD -> 0 <= size < UINTPTR_MOD ->
  Forall wf_arena c ->
  Forall wf_arena (snd (Arena_alloc def_size m_region m_arena c size)).
Proof.
  intros Hd Hs Hwf. pose proof UINTPTR_MOD_eq as HM.
  unfold Arena_alloc. destruct (size =? 0) eqn:H0; [exact Hwf|].
  apply Z.eqb_neq in H0.
  pose proof (conv_size_range size Hs) as Hcs.
  change (2 ^ 62) with 4611686018427387904 in Hcs.
  destruct (first_fit_split (conv_size size) c)
    as [Hno|(pre & n & post & -> & Hpre & Hn)].
  - destruct c as [|m l] using rev_ind; [exact Hwf|]. clear IHl.
    rewrite (alloc_walk_grow _ _ _ _ _ _ Hno). simpl snd.
    apply Forall_app in Hwf as [Hwl Hwm].
    inversion Hwm as [|x l' Hm _]; subst.
    destruct Hm as [Hm0 [Hm1 Hm2]].
    unfold alloc_grow.
    destruct (new_capacity_for def_size (conv_size size)) as [nc|] eqn:Hnc;
      [|apply Forall_app; auto].
    destruct (grow_loop_sound _ _ _ _ Hd Hnc) as (k & _ & _ & Hk & Hk' & _).
    destruct (m_region =? NULL) eqn:Hmr; [apply Forall_app; auto|].
    apply Z.eqb_neq in Hmr.
    assert (Hnew : forall self sz, sz = 0 \/ sz = _size m -> sz = 0 \/ _region m = NULL ->
      wf_arena (mkArena self m_region (wrap (sz + conv_size size)) nc)).
    { intros self sz Hsz Hsz'. unfold wf_arena. simpl.
      destruct Hsz' as [->|Hr]; [|specialize (Hm2 Hr)];
        rewrite wrap_small by lia; repeat split; try lia; contradiction. }
    destruct (negb (_region m =? NULL)) eqn:Hr.
    + destruct (m_arena =? NULL); apply Forall_app; split; auto.
      constructor; [split; auto|]. constructor; [|constructor].
      apply Hnew; auto.
    + apply negb_false_iff, Z.eqb_eq in Hr.
      apply Forall_app; split; auto. constructor; [|constructor].
      apply Hnew; auto.
  - rewrite (alloc_walk_fast _ _ _ _ _ _ _ Hpre Hn). simpl snd.
    apply Forall_app in Hwf as [Hwp Hwn].
    inversion Hwn as [|x l Hm Hwpost]; subst.
    destruct Hm as [Hm0 [Hm1 Hm2]].
    rewrite fits_wf in Hn by lia. apply Z.leb_le in Hn.
    apply Forall_app; split; [assumption|]. constructor; [|assumption].
    unfold wf_arena; simpl. rewrite wrap_small by lia.
    repeat split; try lia; assumption.
Qed.

Lemma reachable_nofree_wf (def_size : Z) (c : chain) :
  0 < def_size < UINTPTR_MOD -> reachable_nofree def_size c ->
  Forall wf_arena c.
Proof.
  intros Hd Hr. induction Hr as [self|c mr ma size Hr IH Hs|c Hr IH].
  - repeat constructor; unfold UINTPTR_MOD; simpl; lia.
  - apply Arena_alloc_wf; assumption.
  - unfold Arena_reset. rewrite Forall_map.
    eapply Forall_impl; [|exact IH].
    intros n [Hn0 [Hn1 Hn2]]. unfold wf_arena; simpl. repeat split; lia || auto.
Qed.

(** ** The claims *)

(** A concrete run used by several claims: a head at address [1000],
    [COOL_ARENA_DEF_SIZE = 16], a first request of 4 bytes served by a
    buffer at address [5000], then [Arena_free]. *)
Definition released_arena : chain :=
  Arena_free (snd (Arena_alloc 16 5000 NULL (Arena_init 1000) 4)).

(** C1 (code_bug).  After [Arena_free] the buffer of every visited struct
    is cleared, but the head keeps [_size = 2] and [_alloc_size = 16]:
    it is not the blank struct [Arena_init] produces, although the
    documentation of [Arena_free] says the root is reinitialized. *)
Theorem C1_free_head_not_reinitialized :
  Forall (fun n => _region n = NULL)
    (Arena_free_visited (snd (Arena_alloc 16 5000 NULL (Arena_init 1000) 4)))
  /\ released_arena = [mkArena 1000 NULL 2 16]
  /\ released_arena <> Arena_init 1000.
Proof.
  split; [apply Arena_free_visited_region|].
  split; [reflexivity|].
  vm_compute. congruence.
Qed.

(** C2 (code_bug).  A reachable arena holds a struct with no buffer and
    a positive capacity: the one left by [Arena_free]. *)
Theorem C2_reachable_bufferless_with_capacity :
  reachable 16 released_arena
  /\ Exists (fun n => _region n = NULL /\ 0 < _alloc_size n) released_arena.
Proof.
  split.
  - unfold released_arena. apply reach_free.
    apply reach_alloc; [apply reach_init|vm_compute; split; congruence].
  - vm_compute. constructor. split; [reflexivity|reflexivity].
Qed.

(** C6.  A request of zero bytes returns [NULL] and leaves the chain as
    it is. *)
Theorem C6_alloc_zero (def_size m_region m_arena : Z) (c : chain) :
  Arena_alloc def_size m_region m_arena c 0 = (NULL, c).
Proof. reflexivity. Qed.

(** C8 (code_bug).  After [Arena_free] then [Arena_reset], a 4-byte
    request fits in the head's stale capacity: it is served at offset 0
    of the absent buffer and returns [NULL], the failure indicator, while
    the head's [_size] advances, whatever the memory provider would
    answer. *)
Theorem C8_reset_after_free_alloc_returns_null (m_region m_arena : Z) :
  Arena_reset released_arena = [mkArena 1000 NULL 0 16]
  /\ Arena_alloc 16 m_region m_arena (Arena_reset released_arena) 4
     = (NULL, [mkArena 1000 NULL 2 16]).
Proof. split; reflexivity. Qed.

(** C9 (code_bug).  A 60-byte request fills the head ([_size = 16 =
    _alloc_size]); after [Arena_free] the head keeps [_size = 16], and the
    next 60-byte request, served by growing the head in place, succeeds
    and leaves [_size = 32] above [_alloc_size = 16]. *)
Theorem C9_used_exceeds_capacity :
  let c1 := snd (Arena_alloc 16 5000 NULL (Arena_init 1000) 60) in
  c1 = [mkArena 1000 5000 16 16]
  /\ Arena_alloc 16 6000 NULL (Arena_free c1) 60
     = (6000, [mkArena 1000 6000 32 16]).
Proof. split; reflexivity. Qed.

(** C10.  [Arena_init]; a successful 4-byte [Arena_alloc]; [Arena_free];
    a second 4-byte [Arena_alloc]: the second call takes the fast path on
    the head, whose buffer is [NULL], and returns the non-null pointer
    [NULL + 2], without asking the memory provider for anything. *)
Theorem C10_alloc_after_free_uses_absent_buffer :
  exists (def_size size1 size2 self m_region1 : Z),
    let '(p1, c1) := Arena_alloc def_size m_region1 NULL (Arena_init self) size1 in
    let c2 := Arena_free c1 in
    p1 <> NULL /\ size1 <> 0 /\
    Forall (fun n => _region n = NULL) c2 /\
    forall m_region2 m_arena2,
      let '(p2, c3) := Arena_alloc def_size m_region2 m_arena2 c2 size2 in
      p2 <> NULL /\ p2 = wrap (NULL + SIZEOF_UINTPTR * 2) /\
      map _region c3 = [NULL] /\ map _size c3 = [4] /\ length c3 = length c2.
Proof.
  exists 16, 4, 4, 1000, 5000. vm_compute.
  split; [congruence|]. split; [congruence|].
  split; [repeat constructor|].
  intros. repeat split; congruence.
Qed.

(** C4.  When no struct has room for the converted request [s], a
    successful [Arena_alloc] ends the chain with the struct holding the
    new buffer, whose capacity is [COOL_ARENA_DEF_SIZE * 2^k] for the
    least [k >= 0] with [s <= COOL_ARENA_DEF_SIZE * 2^k]; and when every
    such value leaves [uintptr_t], the call returns [NULL] and leaves the
    chain as it was. *)
Theorem C4_growth_capacity (def_size m_region m_arena : Z) (c : chain)
    (size : Z) :
  0 < def_size < UINTPTR_MOD -> 0 < size < UINTPTR_MOD -> c <> [] ->
  Forall (fun n => fits (conv_size size) n = false) c ->
  (forall p c', Arena_alloc def_size m_region m_arena c size = (p, c') ->
     p <> NULL ->
     exists pre nn k, c' = pre ++ [nn] /\ _region nn = p /\ 0 <= k /\
       _alloc_size nn = def_size * 2 ^ k /\
       conv_size size <= _alloc_size nn /\
       (forall j, 0 <= j -> conv_size size <= def_size * 2 ^ j ->
          _alloc_size nn <= def_size * 2 ^ j))
  /\
  ((forall k, 0 <= k -> conv_size size <= def_size * 2 ^ k ->
      UINTPTR_MOD <= def_size * 2 ^ k) ->
   Arena_alloc def_size m_region m_arena c size = (NULL, c)).
Proof.
  intros Hd Hs Hc Hno.
  destruct (exists_last Hc) as (pre & n & ->).
  unfold Arena_alloc.
  replace (size =? 0) with false by (symmetry; apply Z.eqb_neq; lia).
  rewrite (alloc_walk_grow _ _ _ _ _ _ Hno).
  unfold alloc_grow. split.
  - intros p c' E Hp.
    destruct (new_capacity_for def_size (conv_size size)) as [nc|] eqn:Hnc;
      [|injection E as <- _; contradiction].
    destruct (grow_loop_least _ _ _ _ Hd Hnc) as (k & Hk & Hk1 & Hk2 & Hk3).
    destruct (m_region =? NULL) eqn:Hm; [injection E as <- _; contradiction|].
    destruct (negb (_region n =? NULL)).
    + destruct (m_arena =? NULL); [injection E as <- _; contradiction|].
      injection E as <- <-. simpl.
      exists (pre ++ [n]), (mkArena m_arena m_region (wrap (0 + conv_size size)) nc), k.
      rewrite <- app_assoc. simpl. repeat split; assumption.
    + injection E as <- <-. simpl.
      exists pre, (mkArena (_self n) m_region (wrap (_size n + conv_size size)) nc), k.
      repeat split; assumption.
  - intros Hover.
    unfold new_capacity_for. rewrite (grow_loop_overflow _ _ _ Hd Hover). reflexivity.
Qed.

(** C5.  When the growth path is taken and fails (the doubling overflows,
    the buffer cannot be obtained, or the new struct cannot be obtained),
    [Arena_alloc] returns [NULL] and the chain is exactly the one it was
    given. *)
Theorem C5_failure_leaves_arena (def_size m_region m_arena : Z) (c : chain)
    (size : Z) :
  0 < def_size < UINTPTR_MOD -> size <> 0 -> c <> [] ->
  Forall (fun n => fits (conv_size size) n = false) c ->
  ((forall k, 0 <= k -> conv_size size <= def_size * 2 ^ k ->
      UINTPTR_MOD <= def_size * 2 ^ k)
   \/ m_region = NULL
   \/ (_region (last c (Arena_init_node NULL)) <> NULL /\ m_arena = NULL)) ->
  Arena_alloc def_size m_region m_arena c size = (NULL, c).
Proof.
  intros Hd Hs Hc Hno Hcause.
  destruct (exists_last Hc) as (pre & n & ->).
  unfold Arena_alloc.
  replace (size =? 0) with false by (symmetry; apply Z.eqb_neq; lia).
  rewrite (alloc_walk_grow _ _ _ _ _ _ Hno).
  rewrite last_last in Hcause.
  unfold alloc_grow.
  destruct Hcause as [Hover|[Hm|[Hr Ha]]].
  - unfold new_capacity_for. rewrite (grow_loop_overflow _ _ _ Hd Hover). reflexivity.
  - subst m_region.
    destruct (new_capacity_for def_size (conv_size size)); reflexivity.
  - subst m_arena.
    destruct (new_capacity_for def_size (conv_size size)); [|reflexivity].
    destruct (m_region =? NULL); [reflexivity|].
    replace (negb (_region n =? NULL)) with true
      by (symmetry; apply negb_true_iff, Z.eqb_neq; exact Hr).
    reflexivity.
Qed.

(** C3, counterexample.  On a fresh arena no struct has room for a 4-byte
    request, yet no struct is appended: the blank head receives the new
    buffer in place and the chain keeps one struct. *)
Lemma C3_no_append_on_blank_head :
  Forall (fun n => _alloc_size n - _size n < conv_size 4) (Arena_init 1000)
  /\ Arena_alloc 16 5000 7000 (Arena_init 1000) 4
     = (5000, [mkArena 1000 5000 2 16])
  /\ length (snd (Arena_alloc 16 5000 7000 (Arena_init 1000) 4)) = 1%nat.
Proof. vm_compute. repeat constructor. Qed.

(** C3 (amended).  On a chain of well-formed structs, a non-zero request
    of converted size [s] is served from the first struct, in chain
    order, whose free space [_alloc_size - _size] is at least [s]; when
    there is none, the call either fails and leaves the chain unchanged,
    or, if the tail has a buffer, appends a new struct after it, or, if
    the tail has no buffer (the blank head), installs the new buffer in
    the tail itself. *)
Theorem C3_first_fit (def_size m_region m_arena : Z) (c : chain) (size : Z) :
  0 < size < UINTPTR_MOD -> Forall wf_arena c ->
  (forall pre n post, c = pre ++ n :: post ->
     Forall (fun m => _alloc_size m - _size m < conv_size size) pre ->
     conv_size size <= _alloc_size n - _size n ->
     Arena_alloc def_size m_region m_arena c size =
       (wrap (_region n + SIZEOF_UINTPTR * _size n),
        pre ++ mkArena (_self n) (_region n) (_size n + conv_size size)
                 (_alloc_size n) :: post))
  /\
  (forall pre n, c = pre ++ [n] ->
     Forall (fun m => _alloc_size m - _size m < conv_size size) c ->
     let '(p, c') := Arena_alloc def_size m_region m_arena c size in
     (p, c') = (NULL, c)
     \/ (p = m_region /\ p <> NULL /\ _region n <> NULL /\
         exists nn, c' = c ++ [nn] /\ _region nn = m_region /\
           _size nn = conv_size size)
     \/ (p = m_region /\ p <> NULL /\ _region n = NULL /\
         exists n', c' = pre ++ [n'] /\ _self n' = _self n /\
           _region n' = m_region /\ _size n' = conv_size size)).
Proof.
  intros Hs Hwf. pose proof (conv_size_range size ltac:(lia)) as Hcs.
  pose proof UINTPTR_MOD_eq as HM.
  change (2 ^ 62) with 4611686018427387904 in Hcs.
  unfold Arena_alloc.
  replace (size =? 0) with false by (symmetry; apply Z.eqb_neq; lia).
  split.
  - intros pre n post -> Hpre Hn.
    apply Forall_app in Hwf as [Hwpre Hwn].
    inversion Hwn as [|x l [Hn0 [Hn1 _]] _]; subst.
    rewrite alloc_walk_fast.
    + simpl. rewrite (wrap_small (_size n + conv_size size)) by lia. reflexivity.
    + apply (Forall_no_fit_wf _ _ Hwpre). exact Hpre.
    + rewrite fits_wf by lia. apply Z.leb_le. exact Hn.
  - intros pre n -> Hno.
    pose proof Hwf as Hwf'.
    apply Forall_app in Hwf' as [_ Hwn].
    inversion Hwn as [|x l [Hn0 [Hn1 Hn2]] _]; subst.
    apply (Forall_no_fit_wf _ _ Hwf) in Hno.
    rewrite (alloc_walk_grow _ _ _ _ _ _ Hno).
    unfold alloc_grow.
    destruct (new_capacity_for def_size (conv_size size)) as [nc|];
      [|left; reflexivity].
    destruct (m_region =? NULL) eqn:Hm; [left; reflexivity|].
    apply Z.eqb_neq in Hm.
    destruct (_region n =? NULL) eqn:Hr; simpl.
    + right; right. apply Z.eqb_eq in Hr.
      specialize (Hn2 Hr).
      repeat split; try assumption.
      eexists. split; [reflexivity|]. simpl.
      repeat split; try reflexivity. rewrite wrap_small; lia.
    + destruct (m_arena =? NULL); [left; reflexivity|].
      right; left. apply Z.eqb_neq in Hr.
      repeat split; try assumption.
      eexists. rewrite <- app_assoc. split; [reflexivity|]. simpl.
      split; [reflexivity|]. apply wrap_small. lia.
Qed.

(** C7, counterexample.  A 60-byte request that does not fit in the head
    appends a struct: the head's [_size] does not move, but its [_next]
    goes from [NULL] to the new struct. *)
Lemma C7_append_sets_tail_next :
  let c := [mkArena 1000 5000 2 16] in
  let '(p, c') := Arena_alloc 16 6000 7000 c 60 in
  p = 6000 /\ c' = [mkArena 1000 5000 2 16; mkArena 7000 6000 16 16] /\
  nth_error c' 0 = nth_error c 0 /\
  _next c 0 = NULL /\ _next c' 0 = 7000.
Proof. vm_compute. repeat split. Qed.

(** C7 (amended).  On a chain of well-formed structs, a non-zero request
    either fails (returns [NULL]) and leaves the chain unchanged, or
    succeeds and advances the [_size] of exactly one struct by the
    converted size [s] and touches no other struct: on the fast path it
    returns [_region + _size] of that struct and nothing else changes;
    when the blank tail is filled in place it returns the new, non-NULL
    buffer and only that struct changes; when a struct is appended it
    returns the new, non-NULL buffer, the new struct's [_size] is [s] and
    the only other change is the previous tail's [_next], which now
    designates it. *)
Theorem C7_single_region_advances (def_size m_region m_arena : Z)
    (c : chain) (size : Z) :
  0 < size < UINTPTR_MOD -> Forall wf_arena c ->
  let s := conv_size size in
  let '(p, c') := Arena_alloc def_size m_region m_arena c size in
  (p, c') = (NULL, c)
  \/ (exists pre n post, c = pre ++ n :: post /\
        p = wrap (_region n + SIZEOF_UINTPTR * _size n) /\
        c' = pre ++ mkArena (_self n) (_region n) (_size n + s)
                      (_alloc_size n) :: post)
  \/ (exists pre n nc, c = pre ++ [n] /\ _region n = NULL /\ _size n = 0 /\
        p = m_region /\ p <> NULL /\
        c' = pre ++ [mkArena (_self n) m_region (_size n + s) nc])
  \/ (exists pre n nn, c = pre ++ [n] /\ _region n <> NULL /\
        p = m_region /\ p <> NULL /\
        c' = c ++ [nn] /\ _size nn = s /\
        _next c (length pre) = NULL /\ _next c' (length pre) = _self nn).
Proof.
  intros Hs Hwf s. pose proof (conv_size_range size ltac:(lia)) as Hcs.
  pose proof UINTPTR_MOD_eq as HM.
  change (2 ^ 62) with 4611686018427387904 in Hcs.
  unfold Arena_alloc.
  replace (size =? 0) with false by (symmetry; apply Z.eqb_neq; lia).
  destruct (first_fit_split s c) as [Hno|(pre & n & post & -> & Hpre & Hn)].
  - destruct c as [|m l] using rev_ind; [left; reflexivity|].
    clear IHl.
    pose proof Hwf as Hwf'.
    apply Forall_app in Hwf' as [_ Hwn].
    inversion Hwn as [|x l' [Hn0 [Hn1 Hn2]] _]; subst.
    rewrite (alloc_walk_grow _ _ _ _ _ _ Hno).
    unfold alloc_grow.
    destruct (new_capacity_for def_size s) as [nc|]; [|left; reflexivity].
    destruct (m_region =? NULL) eqn:Hm; [left; reflexivity|].
    apply Z.eqb_neq in Hm.
    destruct (_region m =? NULL) eqn:Hr; simpl.
    + right; right; left. apply Z.eqb_eq in Hr. specialize (Hn2 Hr).
      exists l, m, nc. repeat split; try assumption; try lia.
      rewrite wrap_small by lia. reflexivity.
    + destruct (m_arena =? NULL); [left; reflexivity|].
      right; right; right. apply Z.eqb_neq in Hr.
      eexists l, m, _. split; [reflexivity|]. split; [assumption|].
      split; [reflexivity|]. split; [assumption|].
      split; [rewrite <- app_assoc; reflexivity|].
      split; [simpl; apply wrap_small; lia|].
      unfold _next. rewrite !nth_error_app2 by lia.
      replace (S (length l) - length l)%nat with 1%nat by lia.
      split; reflexivity.
  - apply Forall_app in Hwf as [_ Hwn].
    inversion Hwn as [|x l [Hn0 [Hn1 _]] _]; subst.
    rewrite (alloc_walk_fast _ _ _ _ _ _ _ Hpre Hn).
    right; left. exists pre, n, post. split; [reflexivity|].
    split; [reflexivity|].
    rewrite fits_wf in Hn by lia. apply Z.leb_le in Hn.
    simpl. rewrite wrap_small by lia. reflexivity.
Qed.

(** ** Witnesses: the claims' hypotheses hold on concrete arenas *)

Lemma one_region_wf : Forall wf_arena one_region.
Proof.
  constructor; [|constructor].
  unfold wf_arena, NULL. rewrite UINTPTR_MOD_eq. simpl. lia.
Qed.

Lemma two_regions_wf : Forall wf_arena two_regions.
Proof.
  constructor; [|constructor; [|constructor]];
    unfold wf_arena, NULL; rewrite UINTPTR_MOD_eq; simpl; lia.
Qed.

Lemma C3_first_fit_witness :
  0 < 4 < UINTPTR_MOD /\ 0 < 128 < UINTPTR_MOD /\
  Forall wf_arena two_regions /\ Forall wf_arena (Arena_init 1000) /\
  Forall (fun m => _alloc_size m - _size m < conv_size 4)
    [mkArena 1000 5000 16 16] /\
  conv_size 4 <= _alloc_size (mkArena 7000 6000 2 16)
                 - _size (mkArena 7000 6000 2 16) /\
  Forall (fun m => _alloc_size m - _size m < conv_size 128) two_regions /\
  Forall (fun m => _alloc_size m - _size m < conv_size 4) (Arena_init 1000) /\
  (* the full head is skipped and the second struct serves the request *)
  Arena_alloc 16 8000 9000 two_regions 4 =
    (wrap (6000 + SIZEOF_UINTPTR * 2),
     [mkArena 1000 5000 16 16; mkArena 7000 6000 (2 + conv_size 4) 16]) /\
  (* no struct has room and the tail has a buffer *)
  (let '(p, c') := Arena_alloc 16 8000 9000 two_regions 128 in
   (p, c') = (NULL, two_regions)
   \/ (p = 8000 /\ p <> NULL /\ _region (mkArena 7000 6000 2 16) <> NULL /\
       exists nn, c' = two_regions ++ [nn] /\ _region nn = 8000 /\
         _size nn = conv_size 128)
   \/ (p = 8000 /\ p <> NULL /\ _region (mkArena 7000 6000 2 16) = NULL /\
       exists n', c' = [mkArena 1000 5000 16 16] ++ [n'] /\ _self n' = 7000 /\
         _region n' = 8000 /\ _size n' = conv_size 128)) /\
  (* no struct has room and the tail is the blank head *)
  (let '(p, c') := Arena_alloc 16 8000 9000 (Arena_init 1000) 4 in
   (p, c') = (NULL, Arena_init 1000)
   \/ (p = 8000 /\ p <> NULL /\ _region (Arena_init_node 1000) <> NULL /\
       exists nn, c' = Arena_init 1000 ++ [nn] /\ _region nn = 8000 /\
         _size nn = conv_size 4)
   \/ (p = 8000 /\ p <> NULL /\ _region (Arena_init_node 1000) = NULL /\
       exists n', c' = [] ++ [n'] /\ _self n' = 1000 /\
         _region n' = 8000 /\ _size n' = conv_size 4)).
Proof.
  assert (H1 : 0 < 4 < UINTPTR_MOD) by (rewrite UINTPTR_MOD_eq; lia).
  assert (H2 : 0 < 128 < UINTPTR_MOD) by (rewrite UINTPTR_MOD_eq; lia).
  assert (H3 : Forall wf_arena (Arena_init 1000)).
  { constructor; [|constructor].
    unfold wf_arena, NULL. rewrite UINTPTR_MOD_eq. simpl. lia. }
  assert (H4 : Forall (fun m => _alloc_size m - _size m < conv_size 4)
                 [mkArena 1000 5000 16 16])
    by (repeat constructor).
  assert (H5 : conv_size 4 <= _alloc_size (mkArena 7000 6000 2 16)
                 - _size (mkArena 7000 6000 2 16))
    by (vm_compute; discriminate).
  assert (H6 : Forall (fun m => _alloc_size m - _size m < conv_size 128)
                 two_regions)
    by (repeat constructor).
  assert (H7 : Forall (fun m => _alloc_size m - _size m < conv_size 4)
                 (Arena_init 1000))
    by (repeat constructor).
  pose proof two_regions_wf as H0.
  do 8 (split; [assumption|]).
  split; [|split].
  - exact (proj1 (C3_first_fit 16 8000 9000 two_regions 4 H1 two_regions_wf)
             [mkArena 1000 5000 16 16] (mkArena 7000 6000 2 16) [] eq_refl
             H4 H5).
  - exact (proj2 (C3_first_fit 16 8000 9000 two_regions 128 H2 two_regions_wf)
             [mkArena 1000 5000 16 16] (mkArena 7000 6000 2 16) eq_refl H6).
  - exact (proj2 (C3_first_fit 16 8000 9000 (Arena_init 1000) 4 H1 H3)
             [] (Arena_init_node 1000) eq_refl H7).
Defined.

Lemma C4_growth_capacity_witness :
  0 < 16 < UINTPTR_MOD /\ 0 < 128 < UINTPTR_MOD /\ one_region <> [] /\
  Forall (fun n => fits (conv_size 128) n = false) one_region /\
  (forall p c', Arena_alloc 16 6000 7000 one_region 128 = (p, c') ->
     p <> NULL ->
     exists pre nn k, c' = pre ++ [nn] /\ _region nn = p /\ 0 <= k /\
       _alloc_size nn = 16 * 2 ^ k /\
       conv_size 128 <= _alloc_size nn /\
       (forall j, 0 <= j -> conv_size 128 <= 16 * 2 ^ j ->
          _alloc_size nn <= 16 * 2 ^ j)).
Proof.
  assert (H1 : 0 < 16 < UINTPTR_MOD) by (rewrite UINTPTR_MOD_eq; lia).
  assert (H2 : 0 < 128 < UINTPTR_MOD) by (rewrite UINTPTR_MOD_eq; lia).
  assert (H3 : one_region <> []) by discriminate.
  assert (H4 : Forall (fun n => fits (conv_size 128) n = false) one_region)
    by (repeat constructor).
  repeat (split; [assumption|]).
  exact (proj1 (C4_growth_capacity 16 6000 7000 one_region 128 H1 H2 H3 H4)).
Defined.

Lemma C5_failure_leaves_arena_witness :
  0 < 16 < UINTPTR_MOD /\ 128 <> 0 /\ one_region <> [] /\
  Forall (fun n => fits (conv_size 128) n = false) one_region /\
  Arena_alloc 16 NULL 7000 one_region 128 = (NULL, one_region).
Proof.
  assert (H1 : 0 < 16 < UINTPTR_MOD) by (rewrite UINTPTR_MOD_eq; lia).
  assert (H2 : 128 <> 0) by lia.
  assert (H3 : one_region <> []) by discriminate.
  assert (H4 : Forall (fun n => fits (conv_size 128) n = false) one_region)
    by (repeat constructor).
  repeat (split; [assumption|]).
  exact (C5_failure_leaves_arena 16 NULL 7000 one_region 128 H1 H2 H3 H4
           (or_intror (or_introl eq_refl))).
Defined.

Lemma C7_single_region_advances_witness :
  0 < 60 < UINTPTR_MOD /\ Forall wf_arena one_region /\
  (let s := conv_size 60 in
   let '(p, c') := Arena_alloc 16 6000 7000 one_region 60 in
   (p, c') = (NULL, one_region)
   \/ (exists pre n post, one_region = pre ++ n :: post /\
         p = wrap (_region n + SIZEOF_UINTPTR * _size n) /\
         c' = pre ++ mkArena (_self n) (_region n) (_size n + s)
                       (_alloc_size n) :: post)
   \/ (exists pre n nc, one_region = pre ++ [n] /\ _region n = NULL /\
         _size n = 0 /\ p = 6000 /\ p <> NULL /\
         c' = pre ++ [mkArena (_self n) 6000 (_size n + s) nc])
   \/ (exists pre n nn, one_region = pre ++ [n] /\ _region n <> NULL /\
         p = 6000 /\ p <> NULL /\
         c' = one_region ++ [nn] /\ _size nn = s /\
         _next one_region (length pre) = NULL /\
         _next c' (length pre) = _self nn)).
Proof.
  assert (H1 : 0 < 60 < UINTPTR_MOD) by (rewrite UINTPTR_MOD_eq; lia).
  split; [exact H1|]. split; [exact one_region_wf|].
  exact (C7_single_region_advances 16 6000 7000 one_region 60 H1 one_region_wf).
Defined.

(** ** Further properties of [Arena_alloc], [Arena_reset] and [Arena_free] *)

Lemma keeps_struct_refl (l : chain) : Forall2 keeps_struct l l.
Proof.
  induction l as [|n l IH]; constructor; [|exact IH].
  split; [reflexivity|]. intros _. split; reflexivity.
Qed.

Lemma alloc_walk_keeps (def_size m_region m_arena s : Z) (c : chain) :
  exists c1 extra,
    snd (alloc_walk def_size m_region m_arena s c) = c1 ++ extra /\
    Forall2 keeps_struct c c1 /\ (length extra <= 1)%nat.
Proof.
  induction c as [|n rest IH].
  - exists [], []. repeat split; [constructor|simpl; lia].
  - rewrite alloc_walk_cons.
    destruct ((match rest with [] => true | _ => false end) || fits s n)
      eqn:Hstop.
    + destruct (fits s n) eqn:Hf.
      * exists (snd (alloc_fast s n) :: rest), []. simpl.
        rewrite app_nil_r. split; [reflexivity|]. split; [|lia].
        constructor; [|apply keeps_struct_refl].
        split; [reflexivity|]. intros _. split; reflexivity.
      * rewrite orb_false_r in Hstop.
        destruct rest; [|discriminate]. clear Hstop.
        unfold alloc_grow.
        destruct (new_capacity_for def_size s) as [nc|].
        2:{ exists [n], []. repeat split; [apply keeps_struct_refl|simpl; lia]. }
        destruct (m_region =? NULL).
        { exists [n], []. repeat split; [apply keeps_struct_refl|simpl; lia]. }
        destruct (_region n =? NULL) eqn:Hr; simpl.
        -- exists [mkArena (_self n) m_region (wrap (_size n + s)) nc], [].
           repeat split; [|simpl; lia]. constructor; [|constructor].
           split; [reflexivity|]. intros Hn.
           apply Z.eqb_eq in Hr. contradiction.
        -- destruct (m_arena =? NULL).
           ++ exists [n], []. repeat split; [apply keeps_struct_refl|simpl; lia].
           ++ eexists [n], [_]. repeat split; [apply keeps_struct_refl|simpl; lia].
    + destruct IH as (c1 & extra & E & H1 & H2).
      destruct (alloc_walk def_size m_region m_arena s rest) as [mem rest'].
      simpl in E |- *. subst rest'.
      exists (n :: c1), extra. repeat split; [|assumption].
      constructor; [|assumption].
      split; [reflexivity|]. intros _. split; reflexivity.
Qed.

Lemma Arena_alloc_keeps (def_size m_region m_arena : Z)
    (c : chain) (size : Z) :
  exists c1 extra,
    snd (Arena_alloc def_size m_region m_arena c size) = c1 ++ extra /\
    Forall2 keeps_struct c c1 /\ (length extra <= 1)%nat.
Proof.
  unfold Arena_alloc. destruct (size =? 0).
  - exists c, []. rewrite app_nil_r.
    repeat split; [apply keeps_struct_refl|simpl; lia].
  - apply alloc_walk_keeps.
Qed.

(** [Arena_alloc] never removes, reorders or moves a struct of the chain,
    and never replaces the buffer or the capacity of a struct that has a
    buffer; it adds at most one struct, at the end. *)
Theorem Arena_alloc_keeps_structs (def_size m_region m_arena : Z)
    (c : chain) (size : Z) :
  exists c1 extra,
    snd (Arena_alloc def_size m_region m_arena c size) = c1 ++ extra /\
    Forall2 keeps_struct c c1 /\ (length extra <= 1)%nat.
Proof. apply Arena_alloc_keeps. Qed.

Lemma total_used_app (l1 l2 : chain) :
  total_used (l1 ++ l2) = total_used l1 + total_used l2.
Proof.
  induction l1 as [|n l1 IH]; simpl; [reflexivity|]. rewrite IH. ring.
Qed.

(** On a well-formed chain, an allocation either leaves the chain as it
    is or raises the total number of units in use by exactly the
    converted size [(size >> 2) + 1]. *)
Theorem Arena_alloc_total_used (def_size m_region m_arena : Z)
    (c : chain) (size : Z) :
  0 < size < UINTPTR_MOD -> Forall wf_arena c ->
  let c' := snd (Arena_alloc def_size m_region m_arena c size) in
  c' = c \/ total_used c' = total_used c + conv_size size.
Proof.
  intros Hs Hwf. pose proof (conv_size_range size ltac:(lia)) as Hcs.
  pose proof UINTPTR_MOD_eq as HM.
  change (2 ^ 62) with 4611686018427387904 in Hcs.
  unfold Arena_alloc.
  replace (size =? 0) with false by (symmetry; apply Z.eqb_neq; lia).
  destruct (first_fit_split (conv_size size) c)
    as [Hno|(pre & n & post & -> & Hpre & Hn)].
  - destruct c as [|m l] using rev_ind; [left; reflexivity|]. clear IHl.
    pose proof Hwf as Hwf'.
    apply Forall_app in Hwf' as [_ Hwn].
    inversion Hwn as [|x l' [Hn0 [Hn1 Hn2]] _]; subst.
    rewrite (alloc_walk_grow _ _ _ _ _ _ Hno). simpl snd.
    unfold alloc_grow.
    destruct (new_capacity_for def_size (conv_size size)) as [nc|];
      [|left; reflexivity].
    destruct (m_region =? NULL); [left; reflexivity|].
    destruct (_region m =? NULL) eqn:Hr; simpl.
    + right. rewrite !total_used_app. apply Z.eqb_eq in Hr. specialize (Hn2 Hr).
      simpl. rewrite wrap_small by lia. lia.
    + destruct (m_arena =? NULL); [left; reflexivity|].
      right. rewrite !total_used_app. simpl. rewrite wrap_small by lia. lia.
  - apply Forall_app in Hwf as [_ Hwn].
    inversion Hwn as [|x l [Hn0 [Hn1 _]] _]; subst.
    rewrite (alloc_walk_fast _ _ _ _ _ _ _ Hpre Hn). simpl snd.
    rewrite fits_wf in Hn by lia. apply Z.leb_le in Hn.
    right. rewrite !total_used_app. simpl.
    rewrite wrap_small by lia. lia.
Qed.

(** Every arena obtained from [Arena_init] by allocations and resets,
    never freed, has well-formed structs: [_size <= _alloc_size] and no
    capacity without a buffer. *)
Theorem reachable_nofree_invariant (def_size : Z) (c : chain) :
  0 < def_size < UINTPTR_MOD -> reachable_nofree def_size c ->
  Forall wf_arena c.
Proof. apply reachable_nofree_wf. Qed.

Lemma Arena_reset_wf (c : chain) :
  Forall wf_arena c -> Forall wf_arena (Arena_reset c).
Proof.
  intros H. unfold Arena_reset. rewrite Forall_map.
  eapply Forall_impl; [|exact H].
  intros n [Hn0 [Hn1 Hn2]]. unfold wf_arena; simpl. repeat split; lia || auto.
Qed.

(** On a well-formed chain, after [Arena_reset], a request whose
    converted size fits in some struct's capacity is served at offset 0 of
    the first struct whose capacity is large enough: the call returns that
    struct's (non-NULL) buffer and no struct is added. *)
Theorem Arena_reset_alloc_reuses (def_size m_region m_arena : Z)
    (pre : chain) (n : Arena) (post : chain) (size : Z) :
  Forall wf_arena (pre ++ n :: post) -> 0 < size < UINTPTR_MOD ->
  0 <= _region n < UINTPTR_MOD ->
  Forall (fun m => _alloc_size m < conv_size size) pre ->
  conv_size size <= _alloc_size n ->
  _region n <> NULL /\
  Arena_alloc def_size m_region m_arena (Arena_reset (pre ++ n :: post)) size =
    (_region n,
     Arena_reset pre ++
       mkArena (_self n) (_region n) (conv_size size) (_alloc_size n)
       :: Arena_reset post).
Proof.
  intros Hwf Hs Hr Hpre Hn.
  pose proof (conv_size_range size ltac:(lia)) as Hcs.
  pose proof UINTPTR_MOD_eq as HM.
  change (2 ^ 62) with 4611686018427387904 in Hcs.
  pose proof Hwf as Hwf'.
  apply Forall_app in Hwf' as [Hwpre Hwn].
  inversion Hwn as [|x l [Hn0 [Hn1 Hn2]] _]; subst.
  split.
  { intros E. specialize (Hn2 E). lia. }
  unfold Arena_alloc.
  replace (size =? 0) with false by (symmetry; apply Z.eqb_neq; lia).
  unfold Arena_reset at 1. rewrite map_app. simpl map.
  rewrite alloc_walk_fast.
  - simpl. rewrite Z.add_0_r, !wrap_small by lia.
    reflexivity.
  - rewrite Forall_map. rewrite Forall_forall in Hpre, Hwpre |- *.
    intros m Hm. specialize (Hpre m Hm). destruct (Hwpre m Hm) as [Hm0 [Hm1 _]].
    unfold fits; simpl. rewrite wrap_small by lia. apply Z.leb_gt. lia.
  - unfold fits; simpl. rewrite wrap_small by lia. apply Z.leb_le. lia.
Qed.

(** Two successive allocations served by the fast path of the same struct
    are adjacent: the second block starts [8 * s1] bytes after the first,
    where [s1] is the converted size of the first request, so the two
    blocks do not overlap. *)
Theorem Arena_alloc_fast_adjacent (def_size m_region m_arena m_region'
    m_arena' : Z) (pre : chain) (n : Arena) (post : chain) (size1 size2 : Z) :
  Forall wf_arena (pre ++ n :: post) ->
  0 < size1 < UINTPTR_MOD -> 0 < size2 < UINTPTR_MOD ->
  Forall (fun m => _alloc_size m - _size m < conv_size size1) pre ->
  Forall (fun m => _alloc_size m - _size m < conv_size size2) pre ->
  conv_size size1 + conv_size size2 <= _alloc_size n - _size n ->
  let '(p1, c1) := Arena_alloc def_size m_region m_arena (pre ++ n :: post) size1 in
  let '(p2, c2) := Arena_alloc def_size m_region' m_arena' c1 size2 in
  p2 = wrap (p1 + SIZEOF_UINTPTR * conv_size size1) /\
  c2 = pre ++ mkArena (_self n) (_region n)
                 (_size n + conv_size size1 + conv_size size2)
                 (_alloc_size n) :: post.
Proof.
  intros Hwf Hs1 Hs2 Hpre1 Hpre2 Hn.
  pose proof (conv_size_range size1 ltac:(lia)) as Hc1.
  pose proof (conv_size_range size2 ltac:(lia)) as Hc2.
  pose proof UINTPTR_MOD_eq as HM.
  pose proof Hwf as Hwf'.
  apply Forall_app in Hwf' as [Hwpre Hwn].
  inversion Hwn as [|x l [Hn0 [Hn1 Hn2]] _]; subst.
  unfold Arena_alloc.
  replace (size1 =? 0) with false by (symmetry; apply Z.eqb_neq; lia).
  replace (size2 =? 0) with false by (symmetry; apply Z.eqb_neq; lia).
  rewrite alloc_walk_fast.
  2:{ apply (Forall_no_fit_wf _ _ Hwpre). exact Hpre1. }
  2:{ rewrite fits_wf by lia. apply Z.leb_le. lia. }
  cbn [fst snd alloc_fast _self _region _size _alloc_size].
  rewrite (wrap_small (_size n + conv_size size1)) by lia.
  rewrite alloc_walk_fast.
  2:{ apply (Forall_no_fit_wf _ _ Hwpre). exact Hpre2. }
  2:{ rewrite fits_wf; simpl; [apply Z.leb_le; lia|lia]. }
  cbn [fst snd alloc_fast _self _region _size _alloc_size].
  rewrite (wrap_small (_size n + conv_size size1 + conv_size size2))
    by lia.
  split; [|reflexivity].
  unfold wrap. rewrite Zplus_mod_idemp_l. f_equal. ring.
Qed.

Lemma new_capacity_bounds_aux (def_size s nc : Z) :
  0 < def_size < UINTPTR_MOD -> new_capacity_for def_size s = Some nc ->
  (s <= def_size -> nc = def_size) /\ (def_size < s -> s <= nc < 2 * s).
Proof.
  intros Hd H.
  destruct (grow_loop_sound _ _ _ _ Hd H) as (k & Hk & Hnc & Hs & _ & Hmin).
  destruct (Z.eq_dec k 0) as [->|Hk0].
  - rewrite Z.mul_1_r in Hnc. subst nc. split; [reflexivity|lia].
  - assert (H0 : def_size < s) by (specialize (Hmin 0 ltac:(lia)); lia).
    split; [lia|]. intros _. split; [assumption|].
    specialize (Hmin (k - 1) ltac:(lia)).
    assert (E : def_size * 2 ^ k = 2 * (def_size * 2 ^ (k - 1))).
    { replace k with ((k - 1) + 1) at 1 by ring.
      rewrite Z.pow_add_r, Z.pow_1_r by lia. ring. }
    lia.
Qed.

(** The capacity chosen by the growth loop is [COOL_ARENA_DEF_SIZE] when
    the converted request fits in it, and otherwise lies in [[s, 2s)]:
    doubling never more than doubles the need. *)
Theorem new_capacity_bounds (def_size s nc : Z) :
  0 < def_size < UINTPTR_MOD -> new_capacity_for def_size s = Some nc ->
  (s <= def_size -> nc = def_size) /\ (def_size < s -> s <= nc < 2 * s).
Proof. apply new_capacity_bounds_aux. Qed.

(** For every request size a [uintptr_t] can hold, the doubling loop
    produces a capacity: its overflow exit is never taken. *)
Theorem new_capacity_never_overflows (def_size size : Z) :
  0 < def_size < UINTPTR_MOD -> 0 <= size < UINTPTR_MOD ->
  exists nc, new_capacity_for def_size (conv_size size) = Some nc.
Proof. apply new_capacity_for_conv_size. Qed.

Lemma conv_size_eq (size : Z) :
  0 <= size < UINTPTR_MOD -> conv_size size = size / 4 + 1.
Proof.
  intros Hs. unfold conv_size. rewrite Z.shiftr_div_pow2 by lia.
  change (2 ^ 2) with 4. apply wrap_small.
  rewrite UINTPTR_MOD_eq in *.
  assert (0 <= size / 4) by (apply Z.div_pos; lia).
  pose proof (Z.mul_div_le size 4 ltac:(lia)). lia.
Qed.

(** The bytes asked of the provider, [new_capacity], are fewer than the
    bytes requested exactly when the request exceeds
    [COOL_ARENA_DEF_SIZE] bytes. *)
Lemma new_capacity_short_iff (def_size size nc : Z) :
  0 < def_size < UINTPTR_MOD -> 0 < size < UINTPTR_MOD ->
  new_capacity_for def_size (conv_size size) = Some nc ->
  (nc < size <-> def_size < size).
Proof.
  intros Hd Hs H.
  destruct (new_capacity_bounds_aux _ _ _ Hd H) as [Hle Hgt].
  rewrite (conv_size_eq size ltac:(lia)) in *.
  pose proof (Z.div_mod size 4 ltac:(lia)).
  pose proof (Z.mod_pos_bound size 4 ltac:(lia)).
  destruct (Z.le_gt_cases (size / 4 + 1) def_size) as [Hc|Hc].
  - rewrite (Hle Hc). reflexivity.
  - specialize (Hgt Hc). lia.
Qed.

(** A growth-path allocation installs a buffer obtained with
    [COOL_ARENA_FUNC_ALLOC(new_capacity)], i.e. of [_alloc_size] bytes.
    That buffer is smaller than the [size] bytes the caller asked for
    exactly when [size] exceeds [COOL_ARENA_DEF_SIZE]. *)
Theorem Arena_alloc_grow_buffer_short (def_size m_region m_arena : Z)
    (c : chain) (size : Z) :
  0 < def_size < UINTPTR_MOD -> 0 < size < UINTPTR_MOD -> c <> [] ->
  Forall (fun n => fits (conv_size size) n = false) c ->
  forall p c', Arena_alloc def_size m_region m_arena c size = (p, c') ->
  p <> NULL ->
  exists pre nn, c' = pre ++ [nn] /\ _region nn = p /\
    (_alloc_size nn < size <-> def_size < size).
Proof.
  intros Hd Hs Hc Hno p c' E Hp.
  destruct (exists_last Hc) as (pre & n & ->).
  unfold Arena_alloc in E.
  replace (size =? 0) with false in E by (symmetry; apply Z.eqb_neq; lia).
  rewrite (alloc_walk_grow _ _ _ _ _ _ Hno) in E.
  unfold alloc_grow in E.
  destruct (new_capacity_for def_size (conv_size size)) as [nc|] eqn:Hnc;
    [|injection E as <- _; contradiction].
  pose proof (new_capacity_short_iff _ _ _ Hd Hs Hnc) as Hiff.
  destruct (m_region =? NULL); [injection E as <- _; contradiction|].
  destruct (negb (_region n =? NULL)).
  - destruct (m_arena =? NULL); [injection E as <- _; contradiction|].
    injection E as <- <-. simpl.
    eexists (pre ++ [n]), _. rewrite <- app_assoc.
    split; [reflexivity|]. split; [reflexivity|]. exact Hiff.
  - injection E as <- <-. simpl.
    eexists pre, _. split; [reflexivity|]. split; [reflexivity|]. exact Hiff.
Qed.

(** Whatever the sequence of operations, the chain is never empty and its
    head is the caller's struct given to [Arena_init]. *)
Theorem reachable_from_head (def_size self : Z) (c : chain) :
  reachable_from def_size self c ->
  exists n rest, c = n :: rest /\ _self n = self.
Proof.
  induction 1 as [|c mr ma size Hr IH Hs|c Hr IH|c Hr IH].
  - eexists _, []. split; reflexivity.
  - destruct IH as (n & rest & -> & Hn).
    destruct (Arena_alloc_keeps def_size mr ma (n :: rest) size)
      as (c1 & extra & E & HF & _).
    rewrite E. inversion HF as [|x n' l l' [Hself _] _]; subst.
    eexists _, _. split; [reflexivity|]. exact Hself.
  - destruct IH as (n & rest & -> & Hn). eexists _, _. split; [reflexivity|].
    exact Hn.
  - destruct IH as (n & rest & -> & Hn). eexists _, []. split; [reflexivity|].
    exact Hn.
Qed.

(** ** Properties of [Arena_dump] *)

Lemma string_length_append (a b : string) :
  String.length (a ++ b)%string = (String.length a + String.length b)%nat.
Proof.
  induction a as [|ch a IH]; simpl; [reflexivity|]. rewrite IH. reflexivity.
Qed.

Lemma string_append_cancel_l (a b c : string) :
  (a ++ b)%string = (a ++ c)%string -> b = c.
Proof.
  induction a as [|ch a IH]; simpl; intros H; [exact H|].
  injection H as H. exact (IH H).
Qed.

Lemma dump_words_frame (mem1 mem2 : memory) (region i : Z) (k : nat) :
  (forall j, i <= j < i + Z.of_nat k ->
     wrap (mem1 (wrap (region + SIZEOF_UINTPTR * j))) =
     wrap (mem2 (wrap (region + SIZEOF_UINTPTR * j)))) ->
  dump_words mem1 region i k = dump_words mem2 region i k.
Proof.
  revert i. induction k as [|k IH]; intros i H; cbn [dump_words];
    [reflexivity|].
  rewrite (H i) by lia. rewrite (IH (i + 1)); [reflexivity|].
  intros j Hj. apply H. lia.
Qed.

(** Changing one printed word from [0] to [1] lengthens the text by two
    characters: [0] becomes [0x1]. *)
Lemma dump_words_bump (mem1 mem2 : memory) (region i j0 : Z) (k : nat) :
  i <= j0 < i + Z.of_nat k ->
  (forall j, i <= j < i + Z.of_nat k -> j <> j0 ->
     wrap (mem1 (wrap (region + SIZEOF_UINTPTR * j))) =
     wrap (mem2 (wrap (region + SIZEOF_UINTPTR * j)))) ->
  wrap (mem1 (wrap (region + SIZEOF_UINTPTR * j0))) = 0 ->
  wrap (mem2 (wrap (region + SIZEOF_UINTPTR * j0))) = 1 ->
  String.length (dump_words mem2 region i k) =
    (String.length (dump_words mem1 region i k) + 2)%nat.
Proof.
  revert i. induction k as [|k IH]; intros i Hj0 Hoth H1 H2; [lia|].
  cbn [dump_words]. rewrite !string_length_append.
  destruct (Z.eq_dec i j0) as [->|Hne].
  - rewrite H1, H2.
    rewrite (dump_words_frame mem1 mem2 _ (j0 + 1) k).
    + simpl fmt_alt_lx. simpl String.length. lia.
    + intros j Hj. apply Hoth; lia.
  - rewrite (Hoth i) by lia.
    rewrite (IH (i + 1)); [lia|lia| |exact H1|exact H2].
    intros j Hj Hne'. apply Hoth; lia.
Qed.

(** [Arena_dump] reads memory only at the words [_region[0]] to
    [_region[_alloc_size - 1]], and not at all when [_region] is NULL: two
    memories that agree on those words give the same output. *)
Theorem Arena_dump_reads_only_words (fmt_ptr : Z -> string)
    (mem1 mem2 : memory) (n : Arena) (next : Z) :
  (_region n = NULL \/
   forall i, 0 <= i < _alloc_size n ->
     mem1 (wrap (_region n + SIZEOF_UINTPTR * i)) =
     mem2 (wrap (_region n + SIZEOF_UINTPTR * i))) ->
  Arena_dump fmt_ptr mem1 n next = Arena_dump fmt_ptr mem2 n next.
Proof.
  intros H. unfold Arena_dump.
  destruct (_region n =? NULL) eqn:E; cbn [negb]; [reflexivity|].
  destruct H as [H|H]; [apply Z.eqb_neq in E; contradiction|].
  rewrite (dump_words_frame mem1 mem2); [reflexivity|].
  intros j Hj. f_equal. apply H. lia.
Qed.

(** [Arena_dump] prints [_alloc_size] words of 8 bytes, while the buffer
    [Arena_alloc] installs is [COOL_ARENA_FUNC_ALLOC(new_capacity)], i.e.
    [_alloc_size] bytes.  As soon as the capacity is at least 2, the last
    word printed lies entirely past the end of those [_alloc_size] bytes,
    and its contents change the output. *)
Theorem Arena_dump_reads_past_buffer (fmt_ptr : Z -> string) (n : Arena)
    (next : Z) :
  0 < _region n -> 2 <= _alloc_size n ->
  _region n + SIZEOF_UINTPTR * _alloc_size n <= UINTPTR_MOD ->
  exists a,
    _region n + _alloc_size n <= a /\
    a + SIZEOF_UINTPTR = _region n + SIZEOF_UINTPTR * _alloc_size n /\
    Arena_dump fmt_ptr (fun _ => 0) n next <>
    Arena_dump fmt_ptr (fun x => if x =? a then 1 else 0) n next.
Proof.
  intros Hr Ha Hend. pose proof UINTPTR_MOD_eq as HM.
  unfold SIZEOF_UINTPTR in *.
  exists (_region n + 8 * (_alloc_size n - 1)).
  split; [lia|]. split; [lia|].
  intros E. unfold Arena_dump in E.
  replace (_region n =? NULL) with false in E
    by (symmetry; apply Z.eqb_neq; unfold NULL; lia).
  cbn [negb] in E.
  repeat apply string_append_cancel_l in E.
  apply (f_equal String.length) in E. rewrite !string_length_append in E.
  rewrite (dump_words_bump (fun _ => 0)
             (fun x => if x =? _region n + 8 * (_alloc_size n - 1) then 1 else 0)
             (_region n) 0 (_alloc_size n - 1)) in E; [lia|lia| | |].
  - intros j Hj Hne. unfold SIZEOF_UINTPTR.
    rewrite (wrap_small (_region n + 8 * j)) by lia.
    destruct (Z.eqb_spec (_region n + 8 * j)
                (_region n + 8 * (_alloc_size n - 1))); [lia|reflexivity].
  - reflexivity.
  - unfold SIZEOF_UINTPTR.
    rewrite (wrap_small (_region n + 8 * (_alloc_size n - 1))) by lia.
    rewrite Z.eqb_refl. reflexivity.
Qed.

(** ** Witnesses: the further properties' hypotheses hold on concrete arenas *)

Lemma Arena_alloc_total_used_witness :
  0 < 4 < UINTPTR_MOD /\ Forall wf_arena one_region /\
  (let c' := snd (Arena_alloc 16 6000 7000 one_region 4) in
   c' = one_region \/ total_used c' = total_used one_region + conv_size 4).
Proof.
  assert (H1 : 0 < 4 < UINTPTR_MOD) by (rewrite UINTPTR_MOD_eq; lia).
  split; [exact H1|]. split; [exact one_region_wf|].
  exact (Arena_alloc_total_used 16 6000 7000 one_region 4 H1 one_region_wf).
Defined.

Lemma reachable_nofree_invariant_witness :
  0 < 16 < UINTPTR_MOD /\
  reachable_nofree 16
    (Arena_reset (snd (Arena_alloc 16 5000 6000 (Arena_init 1000) 4))) /\
  Forall wf_arena
    (Arena_reset (snd (Arena_alloc 16 5000 6000 (Arena_init 1000) 4))).
Proof.
  assert (H1 : 0 < 16 < UINTPTR_MOD) by (rewrite UINTPTR_MOD_eq; lia).
  assert (H2 : reachable_nofree 16
    (Arena_reset (snd (Arena_alloc 16 5000 6000 (Arena_init 1000) 4)))).
  { apply rnf_reset. apply rnf_alloc; [apply rnf_init|].
    rewrite UINTPTR_MOD_eq; lia. }
  split; [exact H1|]. split; [exact H2|].
  exact (reachable_nofree_invariant 16 _ H1 H2).
Defined.

Lemma Arena_reset_alloc_reuses_witness :
  Forall wf_arena ([] ++ mkArena 1000 5000 2 16 :: []) /\
  0 < 4 < UINTPTR_MOD /\ 0 <= 5000 < UINTPTR_MOD /\
  Forall (fun m => _alloc_size m < conv_size 4) [] /\
  conv_size 4 <= 16 /\
  _region (mkArena 1000 5000 2 16) <> NULL /\
  Arena_alloc 16 6000 7000 (Arena_reset ([] ++ mkArena 1000 5000 2 16 :: [])) 4 =
    (5000, Arena_reset [] ++ mkArena 1000 5000 (conv_size 4) 16 :: Arena_reset []).
Proof.
  assert (H1 : 0 < 4 < UINTPTR_MOD) by (rewrite UINTPTR_MOD_eq; lia).
  assert (H2 : 0 <= 5000 < UINTPTR_MOD) by (rewrite UINTPTR_MOD_eq; lia).
  assert (H3 : conv_size 4 <= 16) by (vm_compute; discriminate).
  split; [exact one_region_wf|]. split; [exact H1|]. split; [exact H2|].
  split; [constructor|]. split; [exact H3|].
  exact (Arena_reset_alloc_reuses 16 6000 7000 [] (mkArena 1000 5000 2 16) []
           4 one_region_wf H1 H2 (Forall_nil _) H3).
Defined.

Lemma Arena_alloc_fast_adjacent_witness :
  Forall wf_arena ([] ++ mkArena 1000 5000 2 16 :: []) /\
  0 < 4 < UINTPTR_MOD /\
  conv_size 4 + conv_size 4 <= 16 - 2 /\
  (let '(p1, c1) := Arena_alloc 16 6000 7000 ([] ++ mkArena 1000 5000 2 16 :: []) 4 in
   let '(p2, c2) := Arena_alloc 16 6000 7000 c1 4 in
   p2 = wrap (p1 + SIZEOF_UINTPTR * conv_size 4) /\
   c2 = [] ++ mkArena 1000 5000 (2 + conv_size 4 + conv_size 4) 16 :: []).
Proof.
  assert (H1 : 0 < 4 < UINTPTR_MOD) by (rewrite UINTPTR_MOD_eq; lia).
  assert (H2 : conv_size 4 + conv_size 4 <= 16 - 2) by (vm_compute; discriminate).
  split; [exact one_region_wf|]. split; [exact H1|]. split; [exact H2|].
  exact (Arena_alloc_fast_adjacent 16 6000 7000 6000 7000 []
           (mkArena 1000 5000 2 16) [] 4 4 one_region_wf H1 H1
           (Forall_nil _) (Forall_nil _) H2).
Defined.

Lemma new_capacity_bounds_witness :
  0 < 16 < UINTPTR_MOD /\ new_capacity_for 16 33 = Some 64 /\
  (33 <= 16 -> 64 = 16) /\ (16 < 33 -> 33 <= 64 < 2 * 33).
Proof.
  assert (H1 : 0 < 16 < UINTPTR_MOD) by (rewrite UINTPTR_MOD_eq; lia).
  assert (H2 : new_capacity_for 16 33 = Some 64) by (vm_compute; reflexivity).
  split; [exact H1|]. split; [exact H2|].
  exact (new_capacity_bounds 16 33 64 H1 H2).
Defined.

Lemma new_capacity_never_overflows_witness :
  0 < 16 < UINTPTR_MOD /\ 0 <= UINTPTR_MOD - 1 < UINTPTR_MOD /\
  exists nc, new_capacity_for 16 (conv_size (UINTPTR_MOD - 1)) = Some nc.
Proof.
  assert (H1 : 0 < 16 < UINTPTR_MOD) by (rewrite UINTPTR_MOD_eq; lia).
  assert (H2 : 0 <= UINTPTR_MOD - 1 < UINTPTR_MOD) by (rewrite UINTPTR_MOD_eq; lia).
  split; [exact H1|]. split; [exact H2|].
  exact (new_capacity_never_overflows 16 (UINTPTR_MOD - 1) H1 H2).
Defined.

Lemma Arena_alloc_grow_buffer_short_witness :
  0 < 16 < UINTPTR_MOD /\ 0 < 128 < UINTPTR_MOD /\ one_region <> [] /\
  Forall (fun n => fits (conv_size 128) n = false) one_region /\
  (forall p c', Arena_alloc 16 6000 7000 one_region 128 = (p, c') ->
     p <> NULL ->
     exists pre nn, c' = pre ++ [nn] /\ _region nn = p /\
       (_alloc_size nn < 128 <-> 16 < 128)).
Proof.
  assert (H1 : 0 < 16 < UINTPTR_MOD) by (rewrite UINTPTR_MOD_eq; lia).
  assert (H2 : 0 < 128 < UINTPTR_MOD) by (rewrite UINTPTR_MOD_eq; lia).
  assert (H3 : one_region <> []) by discriminate.
  assert (H4 : Forall (fun n => fits (conv_size 128) n = false) one_region)
    by (repeat constructor).
  repeat (split; [assumption|]).
  exact (Arena_alloc_grow_buffer_short 16 6000 7000 one_region 128 H1 H2 H3 H4).
Defined.

Lemma reachable_from_head_witness :
  reachable_from 16 1000
    (Arena_free (snd (Arena_alloc 16 5000 6000 (Arena_init 1000) 4))) /\
  exists n rest,
    Arena_free (snd (Arena_alloc 16 5000 6000 (Arena_init 1000) 4)) = n :: rest /\
    _self n = 1000.
Proof.
  assert (H : reachable_from 16 1000
    (Arena_free (snd (Arena_alloc 16 5000 6000 (Arena_init 1000) 4)))).
  { apply rf_free. apply rf_alloc; [apply rf_init|].
    rewrite UINTPTR_MOD_eq; lia. }
  split; [exact H|].
  exact (reachable_from_head 16 1000 _ H).
Defined.

Lemma Arena_dump_reads_only_words_witness :
  (_region (mkArena 1000 5000 2 16) = NULL \/
   forall i, 0 <= i < _alloc_size (mkArena 1000 5000 2 16) ->
     (fun a => a) (wrap (_region (mkArena 1000 5000 2 16) + SIZEOF_UINTPTR * i)) =
     mem_outside (wrap (_region (mkArena 1000 5000 2 16) + SIZEOF_UINTPTR * i))) /\
  (fun a => a) 4000 <> mem_outside 4000 /\
  (fun a => a) 5128 <> mem_outside 5128 /\
  Arena_dump fmt_lu (fun a => a) (mkArena 1000 5000 2 16) NULL =
  Arena_dump fmt_lu mem_outside (mkArena 1000 5000 2 16) NULL.
Proof.
  assert (H : _region (mkArena 1000 5000 2 16) = NULL \/
   forall i, 0 <= i < _alloc_size (mkArena 1000 5000 2 16) ->
     (fun a => a) (wrap (_region (mkArena 1000 5000 2 16) + SIZEOF_UINTPTR * i)) =
     mem_outside (wrap (_region (mkArena 1000 5000 2 16) + SIZEOF_UINTPTR * i))).
  { right. intros i Hi. cbn [_region _alloc_size] in *.
    unfold SIZEOF_UINTPTR. pose proof UINTPTR_MOD_eq as HM.
    rewrite wrap_small by lia. unfold mem_outside.
    destruct (Z.ltb_spec (5000 + 8 * i) 5000); [lia|].
    destruct (Z.leb_spec (5000 + 8 * 16) (5000 + 8 * i)); [lia|reflexivity]. }
  split; [exact H|].
  split; [vm_compute; discriminate|].
  split; [vm_compute; discriminate|].
  exact (Arena_dump_reads_only_words fmt_lu (fun a => a) mem_outside
           (mkArena 1000 5000 2 16) NULL H).
Defined.

Lemma Arena_dump_reads_past_buffer_witness :
  0 < 5000 /\ 2 <= 16 /\ 5000 + SIZEOF_UINTPTR * 16 <= UINTPTR_MOD /\
  exists a,
    5000 + 16 <= a /\ a + SIZEOF_UINTPTR = 5000 + SIZEOF_UINTPTR * 16 /\
    Arena_dump fmt_lu (fun _ => 0) (mkArena 1000 5000 2 16) NULL <>
    Arena_dump fmt_lu (fun x => if x =? a then 1 else 0)
      (mkArena 1000 5000 2 16) NULL.
Proof.
  assert (H1 : 0 < 5000) by lia.
  assert (H2 : 2 <= 16) by lia.
  assert (H3 : 5000 + SIZEOF_UINTPTR * 16 <= UINTPTR_MOD)
    by (rewrite UINTPTR_MOD_eq; unfold SIZEOF_UINTPTR; lia).
  split; [exact H1|]. split; [exact H2|]. split; [exact H3|].
  exact (Arena_dump_reads_past_buffer fmt_lu (mkArena 1000 5000 2 16) NULL
           H1 H2 H3).
Defined.
